(** * CForm: validation orchestration of the form container

    A shallow embedding of [packages/ui/src/components/form/CForm.tsx]:
    the validator registry, the error state, and the five operations the
    component hands to its descendants and to its owner ([addValidator],
    [clearAll], [clearField], [validateField], [validateAll]).

    Modelling conventions.
    - A JavaScript object used as a dictionary is the finite map of its own
      properties.  [validators] is created as [{}], so that a read of a name
      it does not hold finds the members of [Object.prototype]:
      [validateField] reads such a member as a value that is truthy and not
      iterable.  An assignment to [__proto__] would replace the prototype
      instead of creating a property; the statements that depend on it are
      about registries without a field of that name ([Obj.plain]).
    - [errors] and [value] are only ever read by key: they are [gmap]s.
      [validators] is enumerated by [for ... in], so it is kept as an
      association list in enumeration order.
    - A validator is user code.  It may be asynchronous, may have effects
      and may throw or reject.  It is a function on an abstract world [W];
      [await] on its result is sequential composition, and a rejection is
      an abrupt completion that carries the thrown value.
    - The operations close over the [errors] of the render that created
      them; an operation is run on the form as that render saw it, and
      [setErrors] gives the [errors] of the next render.  The [value] prop
      is an object, is read-only for the form and is the same throughout a
      call. *)

From Stdlib Require Import String Ascii ZArith NArith List.
From stdpp Require Import gmap strings list fin_maps.
Import ListNotations.

Local Open Scope string_scope.
Local Open Scope list_scope.

(** ** Values *)

(** The values a form field holds ([value: any], read as [value[field]]),
    and the values that are thrown; [JError name] is an [Error] object of
    the runtime, known by its name. *)
Inductive JsValue : Type :=
  | JUndefined
  | JNull
  | JBool (b : bool)
  | JNum (n : Z)
  | JStr (s : string)
  | JError (name : string).

(** What a validator answers and what [Errors] stores: [false | string]. *)
Inductive Message : Type :=
  | MFalse
  | MStr (s : string).

(** JavaScript truthiness on [false | string], as tested by [if (error)]:
    [false] and the empty string are falsy. *)
Definition truthy (error : Message) : bool :=
  match error with
  | MFalse => false
  | MStr s => negb (String.eqb s "")
  end.

(** How a call ends: it returns, or it throws (an awaited promise rejects). *)
Inductive Completion (A : Type) : Type :=
  | Normal (a : A)
  | Throw (e : JsValue).
Arguments Normal {A} a.
Arguments Throw {A} e.

(** ** Objects enumerated in property order *)

Module Obj.

(** [for ... in] visits own string keys that are array indices first, in
    ascending numeric order, then the other keys in creation order.  An
    array index is the canonical decimal spelling of an integer below
    [2^32 - 1]. *)
Definition digit_of (c : ascii) : option N :=
  let n := N_of_ascii c in
  if ((48 <=? n) && (n <=? 57))%N then Some (n - 48)%N else None.

Fixpoint digits_value (s : string) (acc : N) : option N :=
  match s with
  | EmptyString => Some acc
  | String c s' =>
      match digit_of c with
      | Some d => digits_value s' (10 * acc + d)%N
      | None => None
      end
  end.

Definition array_index (s : string) : option N :=
  match s with
  | EmptyString => None
  | String c s' =>
      if Ascii.eqb c "0"%char && negb (String.eqb s' "") then None
      else match digits_value s 0%N with
           | Some n => if (n <? 4294967295)%N then Some n else None
           | None => None
           end
  end.

(** [precedes k k']: a fresh key [k] is enumerated before the existing
    key [k']. *)
Definition precedes (k k' : string) : bool :=
  match array_index k, array_index k' with
  | Some n, Some n' => (n <? n')%N
  | Some _, None => true
  | None, _ => false
  end.

(** The string-named members of [Object.prototype].  None is enumerable;
    each is a function, but for [__proto__], whose getter gives the
    prototype object: read through an object created as [{}], each is
    truthy and none is iterable. *)
Definition prototype_names : list string :=
  ["constructor"; "hasOwnProperty"; "isPrototypeOf"; "propertyIsEnumerable";
   "toLocaleString"; "toString"; "valueOf"; "__proto__";
   "__defineGetter__"; "__defineSetter__";
   "__lookupGetter__"; "__lookupSetter__"].

Definition inherited (k : string) : bool :=
  existsb (String.eqb k) prototype_names.

Section Store.
Context {V : Type}.

(** The own properties, in enumeration order. *)
Definition t : Type := list (string * V).

Definition keys (o : t) : list string := map fst o.

(** The own property [k] of [o], if there is one. *)
Fixpoint get (k : string) (o : t) : option V :=
  match o with
  | [] => None
  | (k', v') :: o' => if String.eqb k k' then Some v' else get k o'
  end.

Definition has (k : string) (o : t) : bool :=
  match get k o with Some _ => true | None => false end.

(** Assignment to an existing property keeps its place. *)
Fixpoint replace (k : string) (v : V) (o : t) : t :=
  match o with
  | [] => []
  | (k', v') :: o' =>
      if String.eqb k k' then (k, v) :: o' else (k', v') :: replace k v o'
  end.

(** Assignment to a fresh property creates it at its place in the
    enumeration order. *)
Fixpoint place (k : string) (v : V) (o : t) : t :=
  match o with
  | [] => [(k, v)]
  | (k', v') :: o' =>
      if precedes k k' then (k, v) :: (k', v') :: o'
      else (k', v') :: place k v o'
  end.

(** [o[k] = v], for every name [k] but [__proto__] (see [plain]). *)
Definition set (k : string) (v : V) (o : t) : t :=
  if has k o then replace k v o else place k v o.

(** Each own property occurs once. *)
Definition wf (o : t) : Prop := NoDup (keys o).

(** No assignment to [__proto__] was made: the prototype is still
    [Object.prototype]. *)
Definition plain (o : t) : Prop := "__proto__" ∉ keys o.

End Store.

Arguments t V : clear implicits.

End Obj.

(** ** The form *)

(** [Errors]: field name to [false | string]. *)
Abbreviation Errors := (gmap string Message).

Section Form.

(** Whatever the validators can observe and change besides their
    argument. *)
Context {W : Type}.

(** A computation that may change the world and may throw. *)
Definition Eff (A : Type) : Type := W -> Completion A * W.

Definition ret {A : Type} (a : A) : Eff A := fun w => (Normal a, w).

Definition bind {A B : Type} (c : Eff A) (k : A -> Eff B) : Eff B :=
  fun w =>
    match c w with
    | (Normal a, w') => k a w'
    | (Throw e, w') => (Throw e, w')
    end.

Definition throw {A : Type} (e : JsValue) : Eff A := fun w => (Throw e, w).

Notation "'await' x ':=' c 'in' k" := (bind c (fun x => k))
  (at level 10, x name, c at level 100, k at level 200).

(** [Validator]: from a field's current value to [false] or a message,
    possibly asynchronously. *)
Definition Validator : Type := JsValue -> Eff Message.

(** [Validators]: field name to ordered rule list. *)
Definition Validators : Type := Obj.t (list Validator).

(** What one render of the component closes over: the [value] prop, the
    [validators] object and the [errors] state, which is [undefined]
    until the first [setErrors]. *)
Record CForm : Type := mkCForm {
  value : gmap string JsValue;
  validators : Validators;
  errors : option Errors;
}.

(** [value[field]] *)
Definition value_at (v : gmap string JsValue) (field : string) : JsValue :=
  match v !! field with
  | Some x => x
  | None => JUndefined
  end.

(** [{ ...errors }]: spreading [undefined] gives no property. *)
Definition spread (e : option Errors) : Errors :=
  match e with
  | Some m => m
  | None => ∅
  end.

Definition setErrors (e : Errors) (fm : CForm) : CForm :=
  {| value := value fm; validators := validators fm; errors := Some e |}.

(** [validators[field] = newValidator] *)
Definition addValidator (field : string) (newValidator : list Validator)
    (fm : CForm) : CForm :=
  {| value := value fm;
     validators := Obj.set field newValidator (validators fm);
     errors := errors fm |}.

(** [setErrors({})] *)
Definition clearAll (fm : CForm) : CForm := setErrors ∅ fm.

(** [setErrors({ ...errors, [field]: false })] *)
Definition clearField (field : string) (fm : CForm) : CForm :=
  setErrors (<[field := MFalse]> (spread (errors fm))) fm.

(** The [for ... of] loop of [validateField]; the result is [hasError]
    when the loop is left. *)
Fixpoint validateField_rules (fieldRules : list Validator) (v : JsValue)
    : Eff Message :=
  match fieldRules with
  | [] => ret MFalse
  | rule :: rest =>
      await error := rule v in
      if truthy error then ret error else validateField_rules rest v
  end.

(** [validators[field]] is the own property when there is one; else the
    member of [Object.prototype] of that name, which passes
    [if (fieldRules)] and on which [for ... of] throws a [TypeError]; else
    [undefined], and the loop is skipped. *)
Definition validateField (field : string) (fm : CForm) (w : W)
    : Completion unit * CForm * W :=
  let hasError :=
    match Obj.get field (validators fm) with
    | Some fieldRules =>
        validateField_rules fieldRules (value_at (value fm) field)
    | None =>
        if Obj.inherited field then throw (JError "TypeError")
        else ret MFalse
    end in
  match hasError w with
  | (Normal h, w') =>
      (Normal tt, setErrors (<[field := h]> (spread (errors fm))) fm, w')
  | (Throw e, w') => (Throw e, fm, w')
  end.

(** The inner [for ... of] loop of [validateAll], on the local [errors]
    object. *)
Fixpoint validateAll_rules (field : string) (rules : list Validator)
    (v : JsValue) (errs : Errors) : Eff Errors :=
  match rules with
  | [] => ret errs
  | rule :: rest =>
      await error := rule v in
      if truthy error then ret (<[field := error]> errs)
      else validateAll_rules field rest v errs
  end.

(** The outer [for ... in] loop: [rules] is [validators[field]], the
    value stored under the enumerated key. *)
Fixpoint validateAll_fields (entries : Validators)
    (v : gmap string JsValue) (errs : Errors) : Eff Errors :=
  match entries with
  | [] => ret errs
  | (field, rules) :: more =>
      await errs' := validateAll_rules field rules (value_at v field) errs in
      validateAll_fields more v errs'
  end.

Definition validateAll (fm : CForm) (w : W)
    : Completion unit * CForm * W :=
  match validateAll_fields (validators fm) (value fm) ∅ w with
  | (Normal errs, w') => (Normal tt, setErrors errs fm, w')
  | (Throw e, w') => (Throw e, fm, w')
  end.

(** What a caller and a later render can see of a call: how it ended,
    the [errors] state it left, and the world. *)
Definition observe (r : Completion unit * CForm * W)
    : Completion unit * option Errors * W :=
  match r with
  | (c, fm, w) => (c, errors fm, w)
  end.

(** [passes v rules w w']: called in turn on [v] from world [w], every
    rule of [rules] returns a falsy answer, and the last one leaves the
    world [w']. *)
Inductive passes (v : JsValue) : list Validator -> W -> W -> Prop :=
  | passes_nil w : passes v [] w w
  | passes_cons rule rest error w w1 w2 :
      rule v w = (Normal error, w1) ->
      truthy error = false ->
      passes v rest w1 w2 ->
      passes v (rule :: rest) w w2.

(** [fails_first v rules m w w']: some rule of [rules] returns the truthy
    message [m] and leaves the world [w'], and every rule before it
    passes. *)
Definition fails_first (v : JsValue) (rules : list Validator)
    (m : Message) (w w' : W) : Prop :=
  exists rs1 r rs2 w1,
    rules = rs1 ++ r :: rs2 /\ passes v rs1 w w1 /\
    r v w1 = (Normal m, w') /\ truthy m = true.

(** [throws_first v rules e w w']: some rule of [rules] throws [e] and
    leaves the world [w'], and every rule before it passes. *)
Definition throws_first (v : JsValue) (rules : list Validator)
    (e : JsValue) (w w' : W) : Prop :=
  exists rs1 r rs2 w1,
    rules = rs1 ++ r :: rs2 /\ passes v rs1 w w1 /\
    r v w1 = (Throw e, w').

End Form.

Arguments Eff W A : clear implicits.
Arguments Validator W : clear implicits.
Arguments Validators W : clear implicits.
Arguments CForm W : clear implicits.

(** ** How the form is used *)

Section Usage.
Context {W : Type}.

(** The first render over [v]: [validators] is a new [{}] and
    [useState<Errors>()] starts at [undefined]. *)
Definition mount (v : gmap string JsValue) : CForm W :=
  {| value := v; validators := []; errors := None |}.

(** The descendants of a render register their rules one after the other:
    [addValidator] is called once for each pair, in order. *)
Definition registerAll (regs : list (string * list (Validator W)))
    (fm : CForm W) : CForm W :=
  fold_left (fun fm reg => addValidator reg.1 reg.2 fm) regs fm.


(** The render [fm] over another [value] prop. *)
Definition withValue (v : gmap string JsValue) (fm : CForm W) : CForm W :=
  {| value := v; validators := validators fm; errors := errors fm |}.

(** The error state React holds after the calls [ops], one after the
    other, of operations of the one render [fm], before the next render:
    every call sees the [errors] the render closed over, and every
    [setErrors] replaces the state. *)
Definition afterCalls (ops : list (CForm W -> CForm W)) (fm : CForm W)
    : option Errors :=
  fold_left (fun _ op => errors (op fm)) ops (errors fm).

(** A validator that returns in every world and on every value. *)
Definition never_throws (r : Validator W) : Prop :=
  forall v w, exists m w', r v w = (Normal m, w').

(** No entry of the error state is the empty string: an entry is [false]
    or a message that shows. *)
Definition no_empty_message (e : option Errors) : Prop :=
  forall f m, spread e !! f = Some m -> m = MFalse \/ truthy m = true.

End Usage.

(** [enumerated ks]: the keys [ks] are in the order [for ... in] gives
    them, no key coming after one it precedes. *)
Fixpoint enumerated (ks : list string) : Prop :=
  match ks with
  | [] => True
  | k :: ks' =>
      Forall (fun k' => Obj.precedes k' k = false) ks' /\ enumerated ks'
  end.

(** ** A concrete form

    The world is the log of validator calls, so that a run shows which
    rules were invoked and in which order. *)

Module Scenario.

Definition Log : Type := list string.

(** A rule that records its name and answers by [verdict]. *)
Definition logged (name : string) (verdict : JsValue -> Message)
    : Validator Log :=
  fun v log => (Normal (verdict v), log ++ [name]).

(** A rule that records its name and rejects. *)
Definition rejecting (name : string) (e : JsValue) : Validator Log :=
  fun _ log => (Throw e, log ++ [name]).

Definition required : Validator Log :=
  logged "required" (fun v =>
    match v with
    | JUndefined | JNull | JStr "" => MStr "required"
    | _ => MFalse
    end).

Fixpoint has_at (s : string) : bool :=
  match s with
  | EmptyString => false
  | String c s' => Ascii.eqb c "@"%char || has_at s'
  end.

Definition isEmail : Validator Log :=
  logged "isEmail" (fun v =>
    match v with
    | JStr s => if has_at s then MFalse else MStr "not an email"
    | _ => MStr "not an email"
    end).

Definition minLength : Validator Log :=
  logged "minLength" (fun v =>
    match v with
    | JStr s => if (String.length s <? 8)%nat then MStr "too short" else MFalse
    | _ => MStr "too short"
    end).

Definition unreachable : Validator Log :=
  rejecting "unreachable" (JStr "network down").

(** A freshly rendered form over [v]: no validator, [errors] undefined. *)
Definition fresh (v : gmap string JsValue) : CForm Log :=
  {| value := v; validators := []; errors := None |}.


(** [{email: 'a@b.com'}] with [required] and [isEmail]. *)
Definition good_email : CForm Log :=
  addValidator "email" [required; isEmail]
    (fresh {["email" := JStr "a@b.com"]}).

(** Three registered fields, one of them with no rule; both rules of
    [email] fail on the empty string; an error is on record for [phone],
    which is not registered. *)
Definition signup : CForm Log :=
  addValidator "nickname" []
    (addValidator "password" [required; minLength]
      (addValidator "email" [required; isEmail]
        {| value := {["email" := JStr "";
                      "password" := JStr "hunter2hunter2"]};
           validators := [];
           errors := Some {["phone" := MStr "bad phone"]} |})).

(** Four registered fields; the second rule of [email] rejects. *)
Definition offline : CForm Log :=
  addValidator "zip" [required]
    (addValidator "email" [required; unreachable; isEmail]
      (addValidator "name" [required]
        {| value := {["email" := JStr "a@b.com"; "name" := JStr "Ann";
                      "password" := JStr "pw"]};
           validators := [("password", [required; minLength])];
           errors := Some {["name" := MStr "required"]} |})).

End Scenario.

(** ** Rules that only answer

    A rule given by a name and a verdict on the value: called, it records
    its name in the log and answers by its verdict.  For a registry of
    such rules, what [validateField] and [validateAll] call and record can
    be written down in closed form. *)

Module Traced.
Import Scenario.

Definition Rule : Type := string * (JsValue -> Message).

Definition run (r : Rule) : Validator Log := logged r.1 r.2.

Definition registry (fields : list (string * list Rule)) : Validators Log :=
  map (fun fr => (fr.1, map run fr.2)) fields.

(** The rules of a list that are called on [v]: each one up to and with
    the first whose answer is truthy. *)
Fixpoint called (rs : list Rule) (v : JsValue) : list string :=
  match rs with
  | [] => []
  | r :: rest => r.1 :: (if truthy (r.2 v) then [] else called rest v)
  end.

(** The first truthy answer of a list of rules on [v], if there is one. *)
Fixpoint first_message (rs : list Rule) (v : JsValue) : option Message :=
  match rs with
  | [] => None
  | r :: rest => if truthy (r.2 v) then Some (r.2 v) else first_message rest v
  end.



End Traced.

(** * Properties *)

(** ** Objects *)

Module ObjFacts.
Import Obj.

Section Store.
Context {V : Type}.
Implicit Types (o : Obj.t V) (k : string) (v : V).

Lemma eqb_neq_false k k' : k ≠ k' → String.eqb k k' = false.
Proof. intros H. by apply String.eqb_neq. Qed.

Lemma has_true_iff k o : has k o = true ↔ k ∈ keys o.
Proof.
  unfold has. induction o as [|[k' v'] o IH]; simpl.
  - rewrite elem_of_nil. split; [discriminate | tauto].
  - rewrite elem_of_cons.
    destruct (String.eqb_spec k k') as [->|Hne]; [tauto|].
    rewrite IH. tauto.
Qed.

Lemma get_None_iff k o : get k o = None ↔ k ∉ keys o.
Proof.
  rewrite <- has_true_iff. unfold has.
  destruct (get k o); split; intros H; congruence.
Qed.

(** A stored property is at its first occurrence. *)
Lemma get_Some_split k v o :
  get k o = Some v →
  ∃ pre post, o = pre ++ (k, v) :: post ∧ k ∉ keys pre.
Proof.
  induction o as [|[k' v'] o IH]; simpl; [discriminate|].
  destruct (String.eqb_spec k k') as [->|Hne]; intros H.
  - injection H as ->. exists [], o. split; [reflexivity|].
    apply not_elem_of_nil.
  - destruct (IH H) as (pre & post & -> & Hpre).
    exists ((k', v') :: pre), post. split; [reflexivity|].
    simpl. rewrite not_elem_of_cons. tauto.
Qed.

Lemma get_app_skip k pre o : k ∉ keys pre → get k (pre ++ o) = get k o.
Proof.
  induction pre as [|[k' v'] pre IH]; simpl; [reflexivity|].
  rewrite not_elem_of_cons. intros [Hne Hpre].
  rewrite eqb_neq_false by assumption. auto.
Qed.

Lemma get_middle k v pre post :
  k ∉ keys pre → get k (pre ++ (k, v) :: post) = Some v.
Proof.
  intros Hpre. rewrite get_app_skip by assumption. simpl.
  by rewrite String.eqb_refl.
Qed.


Lemma keys_replace k v o : keys (replace k v o) = keys o.
Proof.
  induction o as [|[k' v'] o IH]; simpl; [reflexivity|].
  destruct (String.eqb_spec k k') as [->|Hne]; simpl; [reflexivity|].
  by rewrite IH.
Qed.

Lemma elem_of_keys_place k v k' o :
  k' ∈ keys (place k v o) ↔ k' = k ∨ k' ∈ keys o.
Proof.
  induction o as [|[k0 v0] o IH]; simpl.
  - by rewrite elem_of_cons.
  - destruct (precedes k k0); simpl; rewrite !elem_of_cons; [tauto|].
    rewrite IH. tauto.
Qed.

Lemma get_replace_eq k v o : has k o = true → get k (replace k v o) = Some v.
Proof.
  unfold has. induction o as [|[k' v'] o IH]; simpl; [discriminate|].
  destruct (String.eqb_spec k k') as [->|Hne]; simpl.
  - by rewrite String.eqb_refl.
  - rewrite eqb_neq_false by assumption. exact IH.
Qed.

Lemma get_replace_ne k k' v o : k ≠ k' → get k' (replace k v o) = get k' o.
Proof.
  intros Hne. induction o as [|[k0 v0] o IH]; simpl; [reflexivity|].
  destruct (String.eqb_spec k k0) as [->|Hne0]; simpl.
  - rewrite (eqb_neq_false k' k0) by congruence. reflexivity.
  - by rewrite IH.
Qed.

Lemma get_place_eq k v o : has k o = false → get k (place k v o) = Some v.
Proof.
  unfold has. induction o as [|[k' v'] o IH]; simpl.
  - by rewrite String.eqb_refl.
  - destruct (String.eqb_spec k k') as [->|Hne]; [discriminate|].
    intros H. destruct (precedes k k'); simpl.
    + by rewrite String.eqb_refl.
    + rewrite eqb_neq_false by assumption. auto.
Qed.

Lemma get_place_ne k k' v o : k ≠ k' → get k' (place k v o) = get k' o.
Proof.
  intros Hne. induction o as [|[k0 v0] o IH]; simpl.
  - by rewrite (eqb_neq_false k' k) by congruence.
  - destruct (precedes k k0); simpl.
    + by rewrite (eqb_neq_false k' k) by congruence.
    + by rewrite IH.
Qed.

Lemma get_set_eq k v o : get k (set k v o) = Some v.
Proof.
  unfold set. destruct (has k o) eqn:H.
  - by apply get_replace_eq.
  - by apply get_place_eq.
Qed.

Lemma get_set_ne k k' v o : k ≠ k' → get k' (set k v o) = get k' o.
Proof.
  intros Hne. unfold set. destruct (has k o).
  - by apply get_replace_ne.
  - by apply get_place_ne.
Qed.

Lemma has_set k v o : has k (set k v o) = true.
Proof. unfold has. by rewrite get_set_eq. Qed.

Lemma replace_replace k v1 v2 o :
  replace k v2 (replace k v1 o) = replace k v2 o.
Proof.
  induction o as [|[k' v'] o IH]; simpl; [reflexivity|].
  destruct (String.eqb_spec k k') as [->|Hne]; simpl.
  - by rewrite String.eqb_refl.
  - rewrite eqb_neq_false by assumption. by rewrite IH.
Qed.

Lemma replace_place k v1 v2 o :
  has k o = false → replace k v2 (place k v1 o) = place k v2 o.
Proof.
  unfold has. induction o as [|[k' v'] o IH]; simpl.
  - by rewrite String.eqb_refl.
  - destruct (String.eqb_spec k k') as [->|Hne]; [discriminate|].
    intros H. destruct (precedes k k'); simpl.
    + by rewrite String.eqb_refl.
    + rewrite eqb_neq_false by assumption. by rewrite IH.
Qed.

(** Assigning twice is assigning the second value. *)
Lemma set_set k v1 v2 o : set k v2 (set k v1 o) = set k v2 o.
Proof.
  unfold set at 1. rewrite has_set. unfold set.
  destruct (has k o) eqn:H.
  - apply replace_replace.
  - by apply replace_place.
Qed.

Lemma wf_nil : wf (@nil (string * V)).
Proof. apply NoDup_nil_2. Qed.

Lemma wf_place k v o : has k o = false → wf o → wf (place k v o).
Proof.
  unfold wf. intros Hk. assert (Hnin : k ∉ keys o).
  { rewrite <- has_true_iff. congruence. }
  clear Hk. induction o as [|[k' v'] o IH]; simpl in *; intros Hwf.
  - apply NoDup_singleton.
  - apply NoDup_cons in Hwf as [Hk' Ho].
    apply not_elem_of_cons in Hnin as [Hne Hnin].
    destruct (precedes k k'); simpl.
    + rewrite !NoDup_cons, !not_elem_of_cons. tauto.
    + rewrite NoDup_cons, elem_of_keys_place. split; [|auto].
      intros [E|E]; [congruence | tauto].
Qed.

(** Assignment keeps each property single: every registry built from
    [{}] by assignments is well formed. *)
Lemma wf_set k v o : wf o → wf (set k v o).
Proof.
  unfold set. destruct (has k o) eqn:H.
  - unfold wf. by rewrite keys_replace.
  - by apply wf_place.
Qed.

Lemma wf_middle k v pre post :
  wf (pre ++ (k, v) :: post) → (k ∉ keys pre) ∧ (k ∉ keys post).
Proof.
  unfold wf, keys. rewrite fmap_app. simpl. intros H.
  apply NoDup_app in H as (_ & Hpre & Hpost).
  apply NoDup_cons in Hpost as [Hpost _]. split; [|assumption].
  intros Hin. apply (Hpre _ Hin). apply elem_of_cons. by left.
Qed.

End Store.

End ObjFacts.

(** ** The rule loops *)

Section Loops.
Context {W : Type}.
Implicit Types (w : W) (v : JsValue) (rules : list (Validator W)).
Implicit Types (errs : Errors) (field : string) (h : Message).

(** Rules that pass are run through. *)
Lemma validateField_rules_skip rs1 rest v w w1 :
  passes v rs1 w w1 →
  validateField_rules (rs1 ++ rest) v w = validateField_rules rest v w1.
Proof.
  induction 1 as [|rule rs error w w1 w2 Hr Hf _ IH]; [reflexivity|].
  simpl. unfold bind. by rewrite Hr, Hf.
Qed.

Lemma validateField_rules_pass rules v w w' :
  passes v rules w w' → validateField_rules rules v w = (Normal MFalse, w').
Proof.
  intros H. rewrite <- (app_nil_r rules).
  by rewrite (validateField_rules_skip _ [] _ _ _ H).
Qed.

Lemma validateField_rules_fail rules v h w w' :
  fails_first v rules h w w' → validateField_rules rules v w = (Normal h, w').
Proof.
  intros (rs1 & r & rs2 & w1 & -> & Hp & Hr & Ht).
  rewrite (validateField_rules_skip _ _ _ _ _ Hp). simpl. unfold bind.
  by rewrite Hr, Ht.
Qed.

Lemma validateField_rules_throw rules v e w w' :
  throws_first v rules e w w' → validateField_rules rules v w = (Throw e, w').
Proof.
  intros (rs1 & r & rs2 & w1 & -> & Hp & Hr).
  rewrite (validateField_rules_skip _ _ _ _ _ Hp). simpl. unfold bind.
  by rewrite Hr.
Qed.

(** The loop of [validateField] has exactly three ways to end. *)
Lemma validateField_rules_cases rules v w :
  (∃ w', passes v rules w w' ∧
         validateField_rules rules v w = (Normal MFalse, w')) ∨
  (∃ h w', fails_first v rules h w w' ∧
           validateField_rules rules v w = (Normal h, w')) ∨
  (∃ e w', throws_first v rules e w w' ∧
           validateField_rules rules v w = (Throw e, w')).
Proof.
  revert w. induction rules as [|rule rest IH]; intros w.
  - left. exists w. split; [constructor | reflexivity].
  - simpl. unfold bind. destruct (rule v w) as [[error|e] w1] eqn:Hr.
    + destruct (truthy error) eqn:Ht.
      * right; left. exists error, w1. split; [|reflexivity].
        exists [], rule, rest, w. repeat split; [constructor | done..].
      * destruct (IH w1) as [(w' & Hp & ->)|[(h & w' & Hf & ->)|(e & w' & Hf & ->)]].
        -- left. exists w'. split; [|reflexivity]. by econstructor.
        -- right; left. exists h, w'. split; [|reflexivity].
           destruct Hf as (rs1 & r & rs2 & wm & -> & Hp & Hrm & Htm).
           exists (rule :: rs1), r, rs2, wm.
           repeat split; [by econstructor | done..].
        -- right; right. exists e, w'. split; [|reflexivity].
           destruct Hf as (rs1 & r & rs2 & wm & -> & Hp & Hrm).
           exists (rule :: rs1), r, rs2, wm.
           repeat split; [by econstructor | done].
    + right; right. exists e, w1. split; [|reflexivity].
      exists [], rule, rest, w. repeat split; [constructor | done].
Qed.

Lemma validateField_rules_normal rules v h w w' :
  validateField_rules rules v w = (Normal h, w') →
  (h = MFalse ∧ passes v rules w w') ∨ fails_first v rules h w w'.
Proof.
  intros H.
  destruct (validateField_rules_cases rules v w)
    as [(w1 & Hp & E)|[(h1 & w1 & Hf & E)|(e & w1 & _ & E)]];
    rewrite E in H; [| |discriminate]; injection H as <- <-; auto.
Qed.

Lemma validateField_rules_thrown rules v e w w' :
  validateField_rules rules v w = (Throw e, w') → throws_first v rules e w w'.
Proof.
  intros H.
  destruct (validateField_rules_cases rules v w)
    as [(w1 & _ & E)|[(h1 & w1 & _ & E)|(e1 & w1 & Hf & E)]];
    rewrite E in H; [discriminate..|]. by injection H as <- <-.
Qed.

(** The inner loop of [validateAll] is the loop of [validateField],
    except that only a truthy answer is written. *)
Lemma validateAll_rules_as_field field rules v errs w :
  validateAll_rules field rules v errs w =
  match validateField_rules rules v w with
  | (Normal h, w') =>
      (Normal (if truthy h then <[field := h]> errs else errs), w')
  | (Throw e, w') => (Throw e, w')
  end.
Proof.
  revert w. induction rules as [|rule rest IH]; intros w; [reflexivity|].
  simpl. unfold bind. destruct (rule v w) as [[error|e] w1]; [|reflexivity].
  destruct (truthy error) eqn:Ht; [|apply IH].
  unfold ret. by rewrite Ht.
Qed.

Lemma validateAll_fields_app (pre post : Validators W) vs errs w :
  validateAll_fields (pre ++ post) vs errs w =
  match validateAll_fields pre vs errs w with
  | (Normal errs', w') => validateAll_fields post vs errs' w'
  | (Throw e, w') => (Throw e, w')
  end.
Proof.
  revert errs w. induction pre as [|[field rules] pre IH]; intros errs w;
    [reflexivity|].
  simpl. unfold bind.
  destruct (validateAll_rules field rules (value_at vs field) errs w)
    as [[errs1|e] w1]; [apply IH | reflexivity].
Qed.

(** The outer loop writes only under the keys it enumerates. *)
Lemma validateAll_fields_frame (entries : Validators W) vs errs w errs' w' f :
  validateAll_fields entries vs errs w = (Normal errs', w') →
  f ∉ Obj.keys entries → errs' !! f = errs !! f.
Proof.
  revert errs w. induction entries as [|[field rules] more IH];
    intros errs w; simpl.
  - intros [= <- <-] _. reflexivity.
  - unfold bind. rewrite validateAll_rules_as_field.
    rewrite not_elem_of_cons. simpl.
    destruct (validateField_rules rules (value_at vs field) w)
      as [[h|e] w1]; [|discriminate].
    intros H [Hne Hnin]. rewrite (IH _ _ H Hnin).
    destruct (truthy h); [|reflexivity]. by rewrite lookup_insert_ne.
Qed.

End Loops.

(** ** The operations *)

Section Operations.
Context {W : Type}.
Implicit Types (fm : CForm W) (w : W) (f : string) (m h : Message).
Implicit Types (rules rest : list (Validator W)).

(** An unfolding of [validateAll] at a registered field: the fields
    enumerated before it, its own rules, the fields after it. *)
Lemma validateAll_at fm pre f rules post w :
  validators fm = pre ++ (f, rules) :: post →
  validateAll fm w =
  match validateAll_fields pre (value fm) ∅ w with
  | (Normal errs1, w1) =>
      match validateField_rules rules (value_at (value fm) f) w1 with
      | (Normal h, w2) =>
          match validateAll_fields post (value fm)
                  (if truthy h then <[f := h]> errs1 else errs1) w2 with
          | (Normal errs, w3) => (Normal tt, setErrors errs fm, w3)
          | (Throw e, w3) => (Throw e, fm, w3)
          end
      | (Throw e, w2) => (Throw e, fm, w2)
      end
  | (Throw e, w1) => (Throw e, fm, w1)
  end.
Proof.
  intros Hv. unfold validateAll. rewrite Hv, validateAll_fields_app.
  destruct (validateAll_fields pre (value fm) ∅ w) as [[errs1|e] w1];
    [|reflexivity].
  simpl. unfold bind. rewrite validateAll_rules_as_field.
  destruct (validateField_rules rules (value_at (value fm) f) w1)
    as [[h|e] w2]; reflexivity.
Qed.

(** A call that throws leaves the form as it was. *)
Lemma validateAll_thrown_same fm w e fm' w' :
  validateAll fm w = (Throw e, fm', w') → fm' = fm.
Proof.
  unfold validateAll.
  destruct (validateAll_fields (validators fm) (value fm) ∅ w)
    as [[errs|e1] w1]; congruence.
Qed.

(** C1 (as amended). For every field of the registry, once [validateAll]
    has completed: if one of the field's rules answered a truthy message
    (every rule before it having passed), the new error mapping holds
    that first message under the field; if every rule passed, the new
    mapping has no entry for the field. *)
Theorem validateAll_entry fm fm' w w' f rules :
  Obj.wf (validators fm) →
  Obj.get f (validators fm) = Some rules →
  validateAll fm w = (Normal tt, fm', w') →
  ∃ errs w1 w2,
    errors fm' = Some errs ∧
    ((passes (value_at (value fm) f) rules w1 w2 ∧ errs !! f = None) ∨
     (∃ m, fails_first (value_at (value fm) f) rules m w1 w2 ∧
           errs !! f = Some m)).
Proof.
  intros Hwf Hget Hrun.
  destruct (ObjFacts.get_Some_split _ _ _ Hget) as (pre & post & Hv & Hpre).
  assert (Hpost : f ∉ Obj.keys post).
  { rewrite Hv in Hwf. by apply ObjFacts.wf_middle in Hwf as [_ ?]. }
  rewrite (validateAll_at _ _ _ _ _ _ Hv) in Hrun.
  destruct (validateAll_fields pre (value fm) ∅ w) as [[errs1|e] w1] eqn:H1;
    [|discriminate].
  destruct (validateField_rules rules (value_at (value fm) f) w1)
    as [[h|e] w2] eqn:H2; [|discriminate].
  destruct (validateAll_fields post (value fm) _ w2) as [[errs|e] w3] eqn:H3;
    [|discriminate].
  injection Hrun as <- <-. exists errs, w1, w2. split; [reflexivity|].
  rewrite (validateAll_fields_frame _ _ _ _ _ _ _ H3 Hpost).
  assert (Hnone : errs1 !! f = None).
  { rewrite (validateAll_fields_frame _ _ _ _ _ _ _ H1 Hpre).
    apply lookup_empty. }
  destruct (validateField_rules_normal _ _ _ _ _ H2) as [[-> Hp]|Hf].
  - left. by split.
  - right. exists h. split; [assumption|].
    destruct Hf as (_ & _ & _ & _ & _ & _ & _ & ->).
    apply lookup_insert_eq.
Qed.


(** C3. When a validator called by [validateAll] throws (the fields
    enumerated before its field have completed and the rules before it
    in its list have passed), [validateAll] ends with that very
    exception, in the world the throwing validator left, and with the
    form, hence its error state, exactly as before the call: the later
    rules and fields are not run, and the mapping built so far is
    dropped. *)
Theorem validateAll_throw_atomic fm pre f rules post errs1 w w1 w2 e :
  validators fm = pre ++ (f, rules) :: post →
  validateAll_fields pre (value fm) ∅ w = (Normal errs1, w1) →
  throws_first (value_at (value fm) f) rules e w1 w2 →
  validateAll fm w = (Throw e, fm, w2) ∧
  errors (validateAll fm w).1.2 = errors fm.
Proof.
  intros Hv Hpre Hthrow.
  rewrite (validateAll_at _ _ _ _ _ _ Hv), Hpre.
  by rewrite (validateField_rules_throw _ _ _ _ _ Hthrow).
Qed.

(** C4. When [validateAll] completes, the new error mapping is built
    from the empty one: each of its keys is a field of the registry, a
    field that is not in the registry has no entry whatever was recorded
    for it before, and the mapping is the same whatever the error state
    was before the call. *)
Theorem validateAll_replaces fm fm' w w' :
  validateAll fm w = (Normal tt, fm', w') →
  ∃ errs,
    errors fm' = Some errs ∧
    (∀ f, is_Some (errs !! f) → f ∈ Obj.keys (validators fm)) ∧
    (∀ f, f ∉ Obj.keys (validators fm) → errs !! f = None) ∧
    (∀ old,
       validateAll
         {| value := value fm; validators := validators fm;
            errors := old |} w =
       (Normal tt,
        {| value := value fm; validators := validators fm;
           errors := Some errs |}, w')).
Proof.
  unfold validateAll. cbn [value validators].
  destruct (validateAll_fields (validators fm) (value fm) ∅ w)
    as [[errs|e] w1] eqn:Hrun; [|discriminate].
  intros [= <- <-]. exists errs.
  assert (Hout : ∀ f, f ∉ Obj.keys (validators fm) → errs !! f = None).
  { intros f Hf. rewrite (validateAll_fields_frame _ _ _ _ _ _ _ Hrun Hf).
    apply lookup_empty. }
  repeat split; [|exact Hout].
  intros f [x Hx]. destruct (decide (f ∈ Obj.keys (validators fm)));
    [assumption|].
  rewrite Hout in Hx by assumption. discriminate.
Qed.

(** C5. For a field without rules (not in the registry, or registered
    with the empty list), [validateAll] adds no entry: when it
    completes, the new mapping has none for the field, and when it
    throws no mapping is written at all. *)
Theorem validateAll_no_rules_no_entry fm f w :
  Obj.wf (validators fm) →
  Obj.get f (validators fm) = None ∨ Obj.get f (validators fm) = Some [] →
  match validateAll fm w with
  | (Normal _, fm', _) => ∃ errs, errors fm' = Some errs ∧ errs !! f = None
  | (Throw _, fm', _) => fm' = fm
  end.
Proof.
  intros Hwf Hf.
  destruct (validateAll fm w) as [[[[]|e] fm'] w'] eqn:Hrun;
    [|by apply validateAll_thrown_same in Hrun].
  destruct Hf as [Hf|Hf].
  - apply ObjFacts.get_None_iff in Hf. revert Hrun. unfold validateAll.
    destruct (validateAll_fields (validators fm) (value fm) ∅ w)
      as [[errs|e] w1] eqn:H1; [|discriminate].
    intros [= <- <-]. exists errs. split; [reflexivity|].
    rewrite (validateAll_fields_frame _ _ _ _ _ _ _ H1 Hf).
    apply lookup_empty.
  - destruct (ObjFacts.get_Some_split _ _ _ Hf) as (pre & post & Hv & Hpre).
    assert (Hpost : f ∉ Obj.keys post).
    { rewrite Hv in Hwf. by apply ObjFacts.wf_middle in Hwf as [_ ?]. }
    rewrite (validateAll_at _ _ _ _ _ _ Hv) in Hrun.
    destruct (validateAll_fields pre (value fm) ∅ w) as [[errs1|e] w1] eqn:H1;
      [|discriminate].
    simpl in Hrun.
    destruct (validateAll_fields post (value fm) errs1 w1)
      as [[errs|e] w3] eqn:H3; [|discriminate].
    injection Hrun as <- <-. exists errs. split; [reflexivity|].
    rewrite (validateAll_fields_frame _ _ _ _ _ _ _ H3 Hpost).
    rewrite (validateAll_fields_frame _ _ _ _ _ _ _ H1 Hpre).
    apply lookup_empty.
Qed.

(** C6 (as amended). [clearField f] sets the error state to the mapping
    that the render it belongs to closed over, with [false] under [f]:
    the entry of [f] is [false], the entry of every other field is the
    one of that mapping, and so is the state React holds after the call
    whatever calls of the same render came before it; value and registry
    are untouched. *)
Theorem clearField_frame fm f :
  ∃ errs,
    errors (clearField f fm) = Some errs ∧
    errs !! f = Some MFalse ∧
    (∀ g, g ≠ f →
       errs !! g = match errors fm with
                   | Some old => old !! g
                   | None => None
                   end) ∧
    (∀ ops, afterCalls (ops ++ [clearField f]) fm = Some errs) ∧
    value (clearField f fm) = value fm ∧
    validators (clearField f fm) = validators fm.
Proof.
  exists (<[f := MFalse]> (spread (errors fm))).
  split; [reflexivity|]. split; [apply lookup_insert_eq|].
  split; [|split; [|split; reflexivity]].
  - intros g Hg. rewrite lookup_insert_ne by congruence.
    destruct (errors fm); [reflexivity | apply lookup_empty].
  - intros ops. unfold afterCalls. by rewrite fold_left_app.
Qed.

(** C7. After [clearAll] the error state is the empty mapping, whatever
    it was before: no field has an entry. *)
Theorem clearAll_empty fm :
  errors (clearAll fm) = Some ∅ ∧
  (∀ f, spread (errors (clearAll fm)) !! f = None) ∧
  value (clearAll fm) = value fm ∧
  validators (clearAll fm) = validators fm.
Proof.
  split; [reflexivity|]. split; [|split; reflexivity].
  intros f. apply lookup_empty.
Qed.

(** C8. Registering a field twice leaves the registry with the second
    rule list under that field: the form is the one a single
    registration of the second list gives. *)
Theorem addValidator_twice fm f rules1 rules2 :
  Obj.get f (validators (addValidator f rules2 (addValidator f rules1 fm)))
    = Some rules2 ∧
  addValidator f rules2 (addValidator f rules1 fm) = addValidator f rules2 fm.
Proof.
  split; [apply ObjFacts.get_set_eq|].
  unfold addValidator. cbn [value validators errors].
  by rewrite ObjFacts.set_set.
Qed.

(** C9. On the form value [{email: ''}] with the single rule [required]
    registered for [email], a rule that answers ['required'] on the
    empty string, [validateAll] completes and the error state it leaves
    is the mapping [{email: 'required'}], whatever it was before. *)
Theorem validateAll_required_scenario (required : Validator W) old w w1 :
  required (JStr "") w = (Normal (MStr "required"), w1) →
  let fm := addValidator "email" [required]
              {| value := {["email" := JStr ""]}; validators := [];
                 errors := old |} in
  validateAll fm w =
    (Normal tt, setErrors {["email" := MStr "required"]} fm, w1) ∧
  observe (validateAll fm w) =
    (Normal tt, Some {["email" := MStr "required"]}, w1) ∧
  ∃ fm' errs,
    validateAll fm w = (Normal tt, fm', w1) ∧
    errors fm' = Some errs ∧
    errs !! "email" = Some (MStr "required") ∧
    ∀ g, g ≠ "email" → errs !! g = None.
Proof.
  intros Hr fm.
  assert (Hrun : validateAll fm w =
    (Normal tt,
     {| value := value fm; validators := validators fm;
        errors := Some {["email" := MStr "required"]} |}, w1)).
  { unfold validateAll. cbn. unfold bind.
    change (value_at {["email" := JStr ""]} "email") with (JStr "").
    rewrite Hr. reflexivity. }
  split; [exact Hrun|]. split; [by rewrite Hrun|].
  eexists _, _. split; [exact Hrun|]. split; [reflexivity|].
  split; [apply lookup_singleton_eq|].
  intros g Hg. by apply lookup_singleton_ne.
Qed.

(** C10 (as amended). Let [f] be a registered field, or a name that is
    not a member of [Object.prototype] on a registry without a field
    [__proto__].  Then [validateField f] writes an entry for [f] whenever
    it completes, and it completes unless one of the rules of [f] throws.
    For a field without rules (not registered, or registered with the
    empty list) and for a field whose rules all pass, it completes and
    the entry is [false]. *)
Theorem validateField_always_writes fm f w :
  is_Some (Obj.get f (validators fm)) ∨
    (Obj.inherited f = false ∧ Obj.plain (validators fm)) →
  (∀ fm' w',
     validateField f fm w = (Normal tt, fm', w') →
     ∃ h errs, fm' = setErrors (<[f := h]> (spread (errors fm))) fm ∧
               errors fm' = Some errs ∧ errs !! f = Some h) ∧
  (Obj.get f (validators fm) = None ∨ Obj.get f (validators fm) = Some [] →
     ∃ fm' errs,
       validateField f fm w = (Normal tt, fm', w) ∧
       fm' = setErrors (<[f := MFalse]> (spread (errors fm))) fm ∧
       errors fm' = Some errs ∧ errs !! f = Some MFalse) ∧
  (∀ rules w',
     Obj.get f (validators fm) = Some rules →
     passes (value_at (value fm) f) rules w w' →
     ∃ fm' errs,
       validateField f fm w = (Normal tt, fm', w') ∧
       fm' = setErrors (<[f := MFalse]> (spread (errors fm))) fm ∧
       errors fm' = Some errs ∧ errs !! f = Some MFalse) ∧
  (∀ e fm' w',
     validateField f fm w = (Throw e, fm', w') →
     fm' = fm ∧
     ∃ rules, Obj.get f (validators fm) = Some rules ∧
              throws_first (value_at (value fm) f) rules e w w').
Proof.
  intros Hf.
  assert (Hin : Obj.get f (validators fm) = None → Obj.inherited f = false).
  { intros Hnone. destruct Hf as [[rules Hsome]|[Hin _]]; congruence. }
  unfold validateField. split; [|split; [|split]].
  - intros fm' w'.
    destruct (Obj.get f (validators fm)) as [rules|].
    + destruct (validateField_rules rules (value_at (value fm) f) w)
        as [[h|e] w1]; [|discriminate].
      intros [= <- <-]. eexists h, _. split; [reflexivity|].
      split; [reflexivity | apply lookup_insert_eq].
    + rewrite Hin by reflexivity. intros [= <- <-].
      eexists MFalse, _. split; [reflexivity|].
      split; [reflexivity | apply lookup_insert_eq].
  - intros Hnone. eexists _, _.
    destruct Hnone as [Hnone|Hnil].
    + rewrite Hnone, Hin by assumption.
      repeat split. apply lookup_insert_eq.
    + rewrite Hnil. repeat split. apply lookup_insert_eq.
  - intros rules w' -> Hp. rewrite (validateField_rules_pass _ _ _ _ Hp).
    eexists _, _. repeat split. apply lookup_insert_eq.
  - intros e fm' w'.
    destruct (Obj.get f (validators fm)) as [rules|].
    + destruct (validateField_rules rules (value_at (value fm) f) w)
        as [[h|e1] w1] eqn:Hl; [discriminate|].
      intros [= <- <- <-]. split; [reflexivity|].
      exists rules. split; [reflexivity|].
      by apply validateField_rules_thrown.
    + by rewrite Hin.
Qed.

End Operations.

(** ** Runs of the concrete forms *)

Section Runs.
Import Scenario.

Example signup_registry :
  Obj.keys (validators signup) = ["email"; "password"; "nickname"].
Proof. reflexivity. Qed.

Example numeric_fields_first :
  Obj.keys (Obj.set "2" 0 (Obj.set "b" 0 (Obj.set "10" 0
             (Obj.set "01" 0 (Obj.set "a" 0 [])))))
  = ["2"; "10"; "a"; "01"; "b"].
Proof. reflexivity. Qed.

Example signup_validateAll :
  observe (validateAll signup []) =
  (Normal tt, Some {["email" := MStr "required"]},
   ["required"; "required"; "minLength"]).
Proof. vm_compute. reflexivity. Qed.

Example signup_validateField :
  observe (validateField "email" signup []) =
  (Normal tt,
   Some {["email" := MStr "required"; "phone" := MStr "bad phone"]},
   ["required"]).
Proof. vm_compute. reflexivity. Qed.

Example offline_validateAll :
  validateAll offline [] =
  (Throw (JStr "network down"), offline,
   ["required"; "minLength"; "required"; "required"; "unreachable"]).
Proof. vm_compute. reflexivity. Qed.

Lemma signup_wf : Obj.wf (validators signup).
Proof. repeat apply ObjFacts.wf_set. apply ObjFacts.wf_nil. Qed.

(** C1 as stated fails on [{email: 'a@b.com'}] with [required] and
    [isEmail]: both rules are called and answer [false], [validateAll]
    completes, and the error mapping it leaves is [{}], in which [email]
    has no entry: it is not [{email: false}]. *)
Lemma validateAll_passing_field_has_no_entry :
  Obj.wf (validators good_email) ∧
  Obj.get "email" (validators good_email) = Some [required; isEmail] ∧
  passes (JStr "a@b.com") [required; isEmail] [] ["required"; "isEmail"] ∧
  validateAll good_email [] =
    (Normal tt, setErrors ∅ good_email, ["required"; "isEmail"]) ∧
  errors (setErrors ∅ good_email) ≠ Some {["email" := MFalse]} ∧
  ¬ (∃ errs, errors (setErrors ∅ good_email) = Some errs ∧
             errs !! "email" = Some MFalse).
Proof.
  split; [repeat apply ObjFacts.wf_set; apply ObjFacts.wf_nil|].
  split; [reflexivity|].
  split; [repeat (econstructor; [reflexivity|reflexivity|]); constructor|].
  split; [reflexivity|].
  split; [intros H; vm_compute in H; discriminate|].
  intros (errs & [= <-] & H). vm_compute in H. discriminate.
Qed.

(** [validateAll_entry] on [signup], at the field [email]. *)
Lemma validateAll_entry_witness :
  Obj.wf (validators signup) ∧
  Obj.get "email" (validators signup) = Some [required; isEmail] ∧
  validateAll signup [] =
    (Normal tt, setErrors {["email" := MStr "required"]} signup,
     ["required"; "required"; "minLength"]) ∧
  ∃ (errs : Errors) w1 w2,
    errors (setErrors {["email" := MStr "required"]} signup) = Some errs ∧
    ((passes (JStr "") [required; isEmail] w1 w2 ∧ errs !! "email" = None) ∨
     (∃ m, fails_first (JStr "") [required; isEmail] m w1 w2 ∧
           errs !! "email" = Some m)).
Proof.
  split; [exact signup_wf|]. split; [reflexivity|].
  split; [vm_compute; reflexivity|].
  apply (validateAll_entry signup
           (setErrors {["email" := MStr "required"]} signup)
           [] ["required"; "required"; "minLength"] "email"
           [required; isEmail]).
  - exact signup_wf.
  - reflexivity.
  - vm_compute. reflexivity.
Defined.


(** [validateAll_throw_atomic] on [offline]: [password] and [name] are
    done, [unreachable] rejects, [isEmail] and [zip] are never reached, and
    the error found for [password] is not written. *)
Lemma validateAll_throw_atomic_witness :
  validators offline =
    [("password", [required; minLength]); ("name", [required])]
    ++ ("email", [required; unreachable; isEmail])
    :: [("zip", [required])] ∧
  validateAll_fields
    [("password", [required; minLength]); ("name", [required])]
    (value offline) ∅ [] =
    (Normal {["password" := MStr "too short"]},
     ["required"; "minLength"; "required"]) ∧
  throws_first (value_at (value offline) "email")
    [required; unreachable; isEmail] (JStr "network down")
    ["required"; "minLength"; "required"]
    ["required"; "minLength"; "required"; "required"; "unreachable"] ∧
  validateAll offline [] =
    (Throw (JStr "network down"), offline,
     ["required"; "minLength"; "required"; "required"; "unreachable"]) ∧
  errors (validateAll offline []).1.2 = errors offline.
Proof.
  assert (H3 : throws_first (value_at (value offline) "email")
    [required; unreachable; isEmail] (JStr "network down")
    ["required"; "minLength"; "required"]
    ["required"; "minLength"; "required"; "required"; "unreachable"]).
  { exists [required], unreachable, [isEmail],
      ["required"; "minLength"; "required"; "required"].
    split; [reflexivity|]. split; [|reflexivity].
    econstructor; [reflexivity | reflexivity | constructor]. }
  split; [reflexivity|]. split; [vm_compute; reflexivity|].
  split; [exact H3|].
  apply (validateAll_throw_atomic offline
           [("password", [required; minLength]); ("name", [required])]
           "email" [required; unreachable; isEmail] [("zip", [required])]
           {["password" := MStr "too short"]} []
           ["required"; "minLength"; "required"]).
  - reflexivity.
  - vm_compute. reflexivity.
  - exact H3.
Defined.

(** [validateAll_replaces] on [signup], where an error was on record for
    the unregistered [phone]. *)
Lemma validateAll_replaces_witness :
  validateAll signup [] =
    (Normal tt, setErrors {["email" := MStr "required"]} signup,
     ["required"; "required"; "minLength"]) ∧
  spread (errors signup) !! "phone" = Some (MStr "bad phone") ∧
  ∃ errs,
    errors (setErrors {["email" := MStr "required"]} signup) = Some errs ∧
    (∀ f, is_Some (errs !! f) → f ∈ Obj.keys (validators signup)) ∧
    (∀ f, f ∉ Obj.keys (validators signup) → errs !! f = None) ∧
    (∀ old,
       validateAll
         {| value := value signup; validators := validators signup;
            errors := old |} [] =
       (Normal tt,
        {| value := value signup; validators := validators signup;
           errors := Some errs |},
        ["required"; "required"; "minLength"])).
Proof.
  split; [vm_compute; reflexivity|]. split; [vm_compute; reflexivity|].
  apply (validateAll_replaces signup). vm_compute. reflexivity.
Defined.

(** [validateAll_no_rules_no_entry] on [signup]: [nickname] has the empty
    rule list and [phone] is not registered. *)
Lemma validateAll_no_rules_no_entry_witness :
  Obj.wf (validators signup) ∧
  Obj.get "nickname" (validators signup) = Some [] ∧
  Obj.get "phone" (validators signup) = None ∧
  (∃ errs, errors (validateAll signup []).1.2 = Some errs ∧
           errs !! "nickname" = None) ∧
  (∃ errs, errors (validateAll signup []).1.2 = Some errs ∧
           errs !! "phone" = None).
Proof.
  split; [exact signup_wf|]. split; [reflexivity|]. split; [reflexivity|].
  split.
  - generalize (validateAll_no_rules_no_entry signup "nickname" []
                  signup_wf (or_intror eq_refl)).
    by destruct (validateAll signup []) as [[[[]|e] fm'] w'] eqn:E;
      [|vm_compute in E; discriminate].
  - generalize (validateAll_no_rules_no_entry signup "phone" []
                  signup_wf (or_introl eq_refl)).
    by destruct (validateAll signup []) as [[[[]|e] fm'] w'] eqn:E;
      [|vm_compute in E; discriminate].
Defined.

(** [validateAll_required_scenario] with the logging [required], on a
    form that had another error on record. *)
Lemma validateAll_required_scenario_witness :
  let fm := addValidator "email" [required]
              {| value := {["email" := JStr ""]}; validators := [];
                 errors := Some {["phone" := MStr "bad phone"]} |} in
  required (JStr "") [] = (Normal (MStr "required"), ["required"]) ∧
  observe (validateAll fm []) =
    (Normal tt, Some {["email" := MStr "required"]}, ["required"]) ∧
  ∃ fm' errs,
    validateAll fm [] = (Normal tt, fm', ["required"]) ∧
    errors fm' = Some errs ∧
    errs !! "email" = Some (MStr "required") ∧
    ∀ g, g ≠ "email" → errs !! g = None.
Proof.
  intros fm. split; [reflexivity|].
  exact (proj2 (validateAll_required_scenario required
                  (Some {["phone" := MStr "bad phone"]}) [] ["required"]
                  eq_refl)).
Defined.

(** A form with an error on record for [email] and one for [phone]. *)
Lemma clearField_frame_witness :
  let fm : CForm Log :=
    {| value := ∅; validators := [];
       errors := Some {["email" := MStr "required";
                        "phone" := MStr "bad phone"]} |} in
  errors (clearField "email" fm) =
    Some {["email" := MFalse; "phone" := MStr "bad phone"]} ∧
  ∃ errs,
    errors (clearField "email" fm) = Some errs ∧
    errs !! "email" = Some MFalse ∧
    errs !! "phone" = Some (MStr "bad phone") ∧
    errs !! "name" = None.
Proof.
  intros fm. split; [vm_compute; reflexivity|].
  destruct (clearField_frame fm "email") as (errs & He & Hf & Hg & _).
  exists errs. split; [exact He|]. split; [exact Hf|].
  split; [by rewrite (Hg "phone") | by rewrite (Hg "name")].
Defined.

(** C6 as stated fails when [clearField] is called twice in one render:
    both calls see the [errors] of that render, so that the second call,
    for [phone], puts the entry of [email], which the first call had set
    to [false], back to its message. *)
Lemma clearField_same_render_overwrites :
  let fm : CForm Log :=
    {| value := ∅; validators := [];
       errors := Some {["email" := MStr "required";
                        "phone" := MStr "bad phone"]} |} in
  afterCalls [clearField "email"] fm =
    Some {["email" := MFalse; "phone" := MStr "bad phone"]} ∧
  afterCalls [clearField "email"; clearField "phone"] fm =
    Some {["email" := MStr "required"; "phone" := MFalse]} ∧
  ¬ (∀ before after,
       afterCalls [clearField "email"] fm = Some before →
       afterCalls [clearField "email"; clearField "phone"] fm = Some after →
       ∀ g, g ≠ "phone" → after !! g = before !! g).
Proof.
  intros fm.
  split; [vm_compute; reflexivity|]. split; [vm_compute; reflexivity|].
  intros H. specialize (H _ _ eq_refl eq_refl "email"). vm_compute in H.
  by specialize (H ltac:(discriminate)).
Qed.

(** [validateField_always_writes]: a field whose rules pass, a field that
    is not registered, a field with the empty rule list, and a field with
    a rejecting rule. *)
Lemma validateField_always_writes_witness :
  (Obj.get "email" (validators good_email) = Some [required; isEmail] ∧
   passes (value_at (value good_email) "email") [required; isEmail]
     [] ["required"; "isEmail"] ∧
   observe (validateField "email" good_email []) =
     (Normal tt, Some {["email" := MFalse]}, ["required"; "isEmail"])) ∧
  (Obj.get "phone" (validators good_email) = None ∧
   Obj.inherited "phone" = false ∧ Obj.plain (validators good_email) ∧
   observe (validateField "phone" good_email []) =
     (Normal tt, Some {["phone" := MFalse]}, [])) ∧
  (Obj.get "nickname" (validators signup) = Some [] ∧
   ∃ errs, errors (validateField "nickname" signup []).1.2 = Some errs ∧
           errs !! "nickname" = Some MFalse) ∧
  (validateField "email" offline [] =
     (Throw (JStr "network down"), offline, ["required"; "unreachable"]) ∧
   ∃ rules, Obj.get "email" (validators offline) = Some rules ∧
            throws_first (value_at (value offline) "email") rules
              (JStr "network down") [] ["required"; "unreachable"]).
Proof.
  assert (Hp : passes (value_at (value good_email) "email")
                 [required; isEmail] [] ["required"; "isEmail"]).
  { repeat (econstructor; [reflexivity|reflexivity|]). constructor. }
  assert (Hplain : Obj.plain (validators good_email)).
  { unfold Obj.plain. vm_compute. intros H.
    repeat (apply elem_of_cons in H as [H|H]; [discriminate|]).
    by apply elem_of_nil in H. }
  split; [|split; [|split]].
  - split; [reflexivity|]. split; [exact Hp|].
    destruct (validateField_always_writes good_email "email" []
                (or_introl (ex_intro _ _ eq_refl)))
      as (_ & _ & H & _).
    destruct (H [required; isEmail] ["required"; "isEmail"] eq_refl Hp)
      as (fm' & errs & -> & -> & _).
    vm_compute. reflexivity.
  - split; [reflexivity|]. split; [reflexivity|]. split; [exact Hplain|].
    destruct (validateField_always_writes good_email "phone" []
                (or_intror (conj eq_refl Hplain)))
      as (_ & H & _).
    destruct (H (or_introl eq_refl)) as (fm' & errs & -> & -> & _).
    vm_compute. reflexivity.
  - split; [reflexivity|].
    destruct (validateField_always_writes signup "nickname" []
                (or_introl (ex_intro _ _ eq_refl)))
      as (_ & H & _).
    destruct (H (or_intror eq_refl)) as (fm' & errs & -> & _ & He & Hf).
    by exists errs.
  - split; [vm_compute; reflexivity|].
    destruct (validateField_always_writes offline "email" []
                (or_introl (ex_intro _ _ eq_refl)))
      as (_ & _ & _ & H).
    destruct (H (JStr "network down") offline ["required"; "unreachable"])
      as (_ & Hr); [vm_compute; reflexivity|].
    exact Hr.
Defined.

(** C10 as stated fails in two ways.  On [signup], where no rule is
    registered for [constructor], [validateField] reads the member of
    [Object.prototype] of that name, throws a [TypeError] and writes
    nothing.  On [offline], the second rule of [email] rejects, the
    exception ends the call and nothing is written for [email]. *)
Lemma validateField_does_not_always_write :
  (Obj.get "constructor" (validators signup) = None ∧
   validateField "constructor" signup [] =
     (Throw (JError "TypeError"), signup, []) ∧
   spread (errors (validateField "constructor" signup []).1.2)
     !! "constructor" = None) ∧
  (validateField "email" offline [] =
     (Throw (JStr "network down"), offline, ["required"; "unreachable"]) ∧
   spread (errors (validateField "email" offline []).1.2) !! "email" = None).
Proof.
  repeat split; vm_compute; reflexivity.
Qed.

End Runs.


(** * Further properties of the operations *)

(** ** More on the loops *)

Section MoreLoops.
Context {W : Type}.
Implicit Types (w : W) (v : JsValue) (rules : list (Validator W)).
Implicit Types (errs : Errors) (entries : Validators W).

(** Fields without rules are passed over. *)
Lemma validateAll_fields_no_rules entries vs errs w :
  Forall (λ reg, reg.2 = []) entries →
  validateAll_fields entries vs errs w = (Normal errs, w).
Proof.
  induction 1 as [|[field rules] more Hnil _ IH]; [reflexivity|].
  simpl in Hnil. subst rules. exact IH.
Qed.

(** What the loop of [validateField] hands back is [false] or truthy. *)
Lemma validateField_rules_shape rules v h w w' :
  validateField_rules rules v w = (Normal h, w') →
  h = MFalse ∨ truthy h = true.
Proof.
  intros H. destruct (validateField_rules_normal _ _ _ _ _ H) as [[-> _]|Hf];
    [by left|right].
  by destruct Hf as (_ & _ & _ & _ & _ & _ & _ & ?).
Qed.

(** The outer loop only ever adds truthy messages. *)
Lemma validateAll_fields_truthy entries vs errs w errs' w' :
  validateAll_fields entries vs errs w = (Normal errs', w') →
  (∀ f m, errs !! f = Some m → truthy m = true) →
  ∀ f m, errs' !! f = Some m → truthy m = true.
Proof.
  revert errs w. induction entries as [|[field rules] more IH];
    intros errs w; simpl.
  - by intros [= <- <-].
  - unfold bind. rewrite validateAll_rules_as_field.
    destruct (validateField_rules rules (value_at vs field) w)
      as [[h|e] w1] eqn:Hl; [|discriminate].
    intros Hrun Herrs. apply (IH _ _ Hrun).
    destruct (truthy h) eqn:Ht; [|exact Herrs].
    intros f m. destruct (decide (field = f)) as [->|Hne].
    + rewrite lookup_insert_eq. by intros [= <-].
    + rewrite lookup_insert_ne by assumption. apply Herrs.
Qed.


(** The outer loop reads [value] at the enumerated keys only. *)
Lemma validateAll_fields_reads entries vs1 vs2 errs w :
  (∀ f, f ∈ Obj.keys entries → value_at vs1 f = value_at vs2 f) →
  validateAll_fields entries vs1 errs w = validateAll_fields entries vs2 errs w.
Proof.
  revert errs w. induction entries as [|[field rules] more IH];
    intros errs w Hv; [reflexivity|].
  simpl. unfold bind. rewrite (Hv field) by (simpl; apply elem_of_cons; auto).
  destruct (validateAll_rules field rules (value_at vs2 field) errs w)
    as [[errs1|e] w1]; [|reflexivity].
  apply IH. intros f Hf. apply Hv. simpl. apply elem_of_cons. auto.
Qed.

(** When no rule throws, the loops complete. *)
Lemma validateField_rules_completes rules v w :
  Forall never_throws rules →
  ∃ h w', validateField_rules rules v w = (Normal h, w').
Proof.
  intros H. revert w. induction H as [|rule rest Hr _ IH]; intros w.
  - by exists MFalse, w.
  - simpl. unfold bind. destruct (Hr v w) as (m & w1 & ->).
    destruct (truthy m); [by exists m, w1 | apply IH].
Qed.

Lemma validateAll_fields_completes entries vs errs w :
  Forall (λ reg, Forall never_throws reg.2) entries →
  ∃ errs' w', validateAll_fields entries vs errs w = (Normal errs', w').
Proof.
  intros H. revert errs w. induction H as [|[field rules] more Hr _ IH];
    intros errs w.
  - by exists errs, w.
  - simpl. unfold bind. rewrite validateAll_rules_as_field.
    destruct (validateField_rules_completes rules (value_at vs field) w Hr)
      as (h & w1 & ->).
    apply IH.
Qed.

End MoreLoops.

(** ** More on objects *)

Section MoreObj.
Import Obj.
Context {V : Type}.
Implicit Types (o : Obj.t V) (k : string) (v : V).

Lemma get_app k (o1 o2 : Obj.t V) :
  get k (o1 ++ o2) =
  match get k o1 with Some v => Some v | None => get k o2 end.
Proof.
  induction o1 as [|[k' v'] o1 IH]; simpl; [reflexivity|].
  by destruct (String.eqb k k').
Qed.

Lemma get_Some_elem k v o : get k o = Some v → (k, v) ∈ o.
Proof.
  intros H. destruct (ObjFacts.get_Some_split _ _ _ H) as (pre & post & -> & _).
  apply elem_of_app. right. apply elem_of_cons. by left.
Qed.

Lemma has_false_iff k o : has k o = false ↔ get k o = None.
Proof. unfold has. destruct (get k o); split; congruence. Qed.

(** A name that is not an array index goes to the end. *)
Lemma place_append k v o :
  array_index k = None → place k v o = o ++ [(k, v)].
Proof.
  intros Hk. induction o as [|[k' v'] o IH]; simpl; [reflexivity|].
  unfold precedes. rewrite Hk. by rewrite IH.
Qed.

Lemma precedes_asym k k' : precedes k k' = true → precedes k' k = false.
Proof.
  unfold precedes.
  destruct (array_index k) as [n|], (array_index k') as [n'|]; try done.
  rewrite N.ltb_lt, N.ltb_ge. lia.
Qed.

Lemma precedes_chain k k' x :
  precedes k k' = true → precedes x k' = false → precedes x k = false.
Proof.
  unfold precedes.
  destruct (array_index k) as [n|], (array_index k') as [n'|],
    (array_index x) as [nx|]; try done.
  rewrite N.ltb_lt, !N.ltb_ge. lia.
Qed.

Lemma enumerated_place k v o :
  enumerated (keys o) → enumerated (keys (place k v o)).
Proof.
  induction o as [|[k' v'] o IH]; simpl.
  - intros _. split; [constructor | exact I].
  - intros [Hall Ho]. destruct (precedes k k') eqn:Hp; simpl.
    + split; [|by split]. constructor; [by apply precedes_asym|].
      eapply Forall_impl; [exact Hall|]. intros x Hx.
      by apply (precedes_chain k k').
    + split; [|by apply IH]. apply Forall_forall. intros x Hx.
      apply ObjFacts.elem_of_keys_place in Hx as [->|Hx]; [assumption|].
      by apply (proj1 (Forall_forall _ _) Hall).
Qed.

Lemma enumerated_set k v o :
  enumerated (keys o) → enumerated (keys (set k v o)).
Proof.
  unfold set. destruct (has k o).
  - by rewrite ObjFacts.keys_replace.
  - apply enumerated_place.
Qed.

Lemma enumerated_later ks1 k ks2 :
  enumerated (ks1 ++ k :: ks2) → Forall (λ k', precedes k' k = false) ks2.
Proof.
  induction ks1 as [|k0 ks1 IH]; simpl; [tauto|].
  intros [_ H]. by apply IH.
Qed.

End MoreObj.

(** ** More on the operations *)

Section MoreOperations.
Context {W : Type}.
Implicit Types (fm : CForm W) (w : W) (f g : string) (m h : Message).
Implicit Types (rules rest : list (Validator W)) (r : Validator W).

Lemma registerAll_cons f rules regs fm :
  registerAll ((f, rules) :: regs) fm = registerAll regs (addValidator f rules fm).
Proof. reflexivity. Qed.

Lemma registerAll_enumerated regs fm :
  enumerated (Obj.keys (validators fm)) →
  enumerated (Obj.keys (validators (registerAll regs fm))).
Proof.
  revert fm. induction regs as [|[f rules] regs IH]; intros fm H; [exact H|].
  rewrite registerAll_cons. apply IH. by apply enumerated_set.
Qed.

(** X1. On a form where no rule is registered (no field at all, or only
    fields with the empty rule list), [validateAll] calls nothing and does
    what [clearAll] does: the errors on record are replaced by [{}]. *)
Theorem validateAll_without_rules_is_clearAll fm w :
  Forall (λ reg, reg.2 = []) (validators fm) →
  validateAll fm w = (Normal tt, clearAll fm, w).
Proof.
  intros H. unfold validateAll.
  by rewrite (validateAll_fields_no_rules _ _ _ _ H).
Qed.

(** X2. Every entry of the mapping [validateAll] leaves is a non-empty
    message: it never records [false] and never the empty string. *)
Theorem validateAll_only_messages fm fm' w w' f m :
  validateAll fm w = (Normal tt, fm', w') →
  spread (errors fm') !! f = Some m →
  truthy m = true ∧ ∃ s, m = MStr s ∧ s ≠ "".
Proof.
  unfold validateAll.
  destruct (validateAll_fields (validators fm) (value fm) ∅ w)
    as [[errs|e] w1] eqn:Hrun; [|discriminate].
  intros [= <- <-] Hm. simpl in Hm.
  assert (Ht : truthy m = true).
  { apply (validateAll_fields_truthy _ _ _ _ _ _ Hrun) with (f := f);
      [|assumption].
    intros f0 m0. by rewrite lookup_empty. }
  split; [assumption|]. destruct m as [|s]; [discriminate|].
  exists s. split; [reflexivity|]. intros ->. discriminate.
Qed.

(** X3. [validateField f] merges: when it completes, the entries of the
    other fields are those of the error state it closed over, and value
    and registry are untouched. *)
Theorem validateField_frame fm fm' f w w' :
  validateField f fm w = (Normal tt, fm', w') →
  value fm' = value fm ∧ validators fm' = validators fm ∧
  ∀ g, g ≠ f → spread (errors fm') !! g = spread (errors fm) !! g.
Proof.
  unfold validateField.
  assert (Hset : ∀ h, ∀ g, g ≠ f →
    spread (errors (setErrors (<[f := h]> (spread (errors fm))) fm)) !! g =
    spread (errors fm) !! g).
  { intros h g Hg. simpl. by rewrite lookup_insert_ne. }
  destruct (Obj.get f (validators fm)) as [rules|].
  - destruct (validateField_rules rules (value_at (value fm) f) w)
      as [[h|e] w1]; [|discriminate].
    intros [= <- <-]. repeat split. apply Hset.
  - destruct (Obj.inherited f); [discriminate|].
    intros [= <- <-]. repeat split. apply Hset.
Qed.

(** X4. A rule that answers the empty string has not failed: with such a
    first rule, [validateField] goes on as if only the rules after it
    were registered, and if it is the only rule the entry written is
    [false], as by [clearField]. *)
Theorem empty_message_is_no_error fm f r rest w w1 :
  Obj.get f (validators fm) = Some (r :: rest) →
  r (value_at (value fm) f) w = (Normal (MStr ""), w1) →
  observe (validateField f fm w) =
    observe (validateField f (addValidator f rest fm) w1) ∧
  (rest = [] → validateField f fm w = (Normal tt, clearField f fm, w1)).
Proof.
  intros Hget Hr. split.
  - unfold validateField, addValidator. cbn [value validators errors].
    rewrite ObjFacts.get_set_eq, Hget. simpl. unfold bind at 1.
    rewrite Hr. simpl.
    destruct (validateField_rules rest (value_at (value fm) f) w1)
      as [[h|e] w2]; reflexivity.
  - intros ->. unfold validateField. rewrite Hget. simpl. unfold bind.
    by rewrite Hr.
Qed.

(** X5. When a rule of [f] throws in [validateField f] (the rules before
    it having passed), the call ends with that exception in the world the
    rule left, the later rules are not called and [setErrors] is not
    reached: the form is as before. *)
Theorem validateField_throw_atomic fm f rules e w w' :
  Obj.get f (validators fm) = Some rules →
  throws_first (value_at (value fm) f) rules e w w' →
  validateField f fm w = (Throw e, fm, w').
Proof.
  intros Hget Ht. unfold validateField. rewrite Hget.
  by rewrite (validateField_rules_throw _ _ _ _ _ Ht).
Qed.

(** X6. On a registry without a field [__proto__], the form raises
    nothing of its own for ordinary names: when no registered rule ever
    throws, [validateAll] completes, and [validateField] completes on
    every field that is registered and on every name that is not a
    member of [Object.prototype]. *)
Theorem completes_when_no_rule_throws fm w :
  Obj.plain (validators fm) →
  Forall (λ reg, Forall never_throws reg.2) (validators fm) →
  (∃ fm' w' errs,
     validateAll fm w = (Normal tt, fm', w') ∧ errors fm' = Some errs) ∧
  (∀ f, is_Some (Obj.get f (validators fm)) ∨ Obj.inherited f = false →
     ∃ fm' w' errs,
       validateField f fm w = (Normal tt, fm', w') ∧
       errors fm' = Some errs ∧ is_Some (errs !! f)).
Proof.
  intros _ H. split.
  - unfold validateAll.
    destruct (validateAll_fields_completes _ (value fm) ∅ w H)
      as (errs & w' & ->).
    by eexists _, _, _.
  - intros f Hf. unfold validateField.
    destruct (Obj.get f (validators fm)) as [rules|] eqn:Hget.
    + assert (Hr : Forall never_throws rules).
      { apply get_Some_elem in Hget.
        exact (proj1 (Forall_forall _ _) H _ Hget). }
      destruct (validateField_rules_completes rules (value_at (value fm) f)
                  w Hr) as (h & w' & ->).
      eexists _, _, _. split; [reflexivity|]. split; [reflexivity|].
      rewrite lookup_insert_eq. by eexists.
    + destruct Hf as [[rules Hsome]|Hin]; [discriminate|]. rewrite Hin.
      eexists _, _, _. split; [reflexivity|]. split; [reflexivity|].
      rewrite lookup_insert_eq. by eexists.
Qed.




End MoreOperations.

(** ** Registration, clearing and the shape of the error state *)

Section Registry.
Context {W : Type}.
Implicit Types (fm : CForm W) (w : W) (f g : string) (m h : Message).
Implicit Types (rules : list (Validator W)).
Implicit Types (regs : list (string * list (Validator W))).

(** X9. After any sequence of registrations none of which is for
    [__proto__], on a registry without such a field, the rule list of a
    field is the one of its last registration in the sequence, or, if the
    sequence does not name it, the one it had; the registry still has no
    field [__proto__] and holds each field once if it did, and value and
    error state are untouched. *)
Theorem registerAll_last_wins regs fm f :
  Obj.plain (validators fm) →
  "__proto__" ∉ regs.*1 →
  Obj.get f (validators (registerAll regs fm)) =
    match Obj.get f (reverse regs) with
    | Some rules => Some rules
    | None => Obj.get f (validators fm)
    end ∧
  Obj.plain (validators (registerAll regs fm)) ∧
  (Obj.wf (validators fm) → Obj.wf (validators (registerAll regs fm))) ∧
  errors (registerAll regs fm) = errors fm ∧
  value (registerAll regs fm) = value fm.
Proof.
  revert fm. induction regs as [|[g rules] regs IH]; intros fm Hplain Hregs.
  - by repeat split.
  - rewrite registerAll_cons. rewrite fmap_cons, not_elem_of_cons in Hregs.
    destruct Hregs as [Hg Hregs]. simpl in Hg.
    assert (Hplain' : Obj.plain (validators (addValidator g rules fm))).
    { unfold Obj.plain. rewrite <- ObjFacts.get_None_iff. simpl.
      rewrite ObjFacts.get_set_ne by congruence.
      by apply ObjFacts.get_None_iff. }
    destruct (IH (addValidator g rules fm) Hplain' Hregs)
      as (Hget & Hp & Hwf & He & Hv).
    split; [|split; [exact Hp|split; [|by split]]].
    + rewrite Hget, reverse_cons, get_app.
      destruct (Obj.get f (reverse regs)); [reflexivity|]. simpl.
      destruct (String.eqb_spec f g) as [->|Hne].
      * apply ObjFacts.get_set_eq.
      * apply ObjFacts.get_set_ne. congruence.
    + intros H. apply Hwf. simpl. by apply ObjFacts.wf_set.
Qed.

(** X10. Registration and the order in which [validateAll] goes through
    the fields, for a name other than [__proto__] on a registry without
    such a field: registering a field again leaves the order as it is,
    and a new field whose name is not an array index comes last. *)
Theorem addValidator_order fm f rules :
  Obj.plain (validators fm) →
  f ≠ "__proto__" →
  (is_Some (Obj.get f (validators fm)) →
   Obj.keys (validators (addValidator f rules fm)) =
     Obj.keys (validators fm)) ∧
  (Obj.get f (validators fm) = None → Obj.array_index f = None →
   validators (addValidator f rules fm) = validators fm ++ [(f, rules)]) ∧
  Obj.plain (validators (addValidator f rules fm)).
Proof.
  intros Hplain Hf. split; [|split].
  - unfold addValidator, Obj.set, Obj.has. cbn [validators].
    intros [old ->]. apply ObjFacts.keys_replace.
  - unfold addValidator, Obj.set, Obj.has. cbn [validators].
    intros -> Hi. by apply place_append.
  - unfold Obj.plain. rewrite <- ObjFacts.get_None_iff. simpl.
    rewrite ObjFacts.get_set_ne by congruence.
    by apply ObjFacts.get_None_iff.
Qed.

(** X11. In the order in which [validateAll] goes through the fields
    registered since the mount, a field named by an array index is never
    behind a field with another kind of name, nor behind a greater
    index, whatever the order of registration. *)
Theorem numeric_fields_come_first regs vs ks1 k ks2 k' n' :
  Obj.keys (validators (registerAll regs (mount vs))) = ks1 ++ k :: ks2 →
  k' ∈ ks2 →
  Obj.array_index k' = Some n' →
  ∃ n, Obj.array_index k = Some n ∧ (n ≤ n')%N.
Proof.
  intros Hks Hk' Hn'.
  assert (He : enumerated (Obj.keys (validators (registerAll regs (mount vs))))).
  { apply registerAll_enumerated. exact I. }
  rewrite Hks in He. apply enumerated_later in He.
  pose proof (proj1 (Forall_forall _ _) He _ Hk') as Hp.
  unfold Obj.precedes in Hp. rewrite Hn' in Hp.
  destruct (Obj.array_index k) as [n|]; [|discriminate].
  exists n. split; [reflexivity|]. apply N.ltb_ge in Hp. exact Hp.
Qed.

(** X12. Clearing composes over successive renders: two [clearField]
    commute, a repeated [clearField] changes nothing more, [clearAll]
    after [clearField] is [clearAll], and [clearField f] after [clearAll]
    leaves exactly [{f: false}]. *)
Theorem clearing_composes fm f g :
  clearField f (clearField g fm) = clearField g (clearField f fm) ∧
  clearField f (clearField f fm) = clearField f fm ∧
  clearAll (clearField f fm) = clearAll fm ∧
  clearField f (clearAll fm) = setErrors {[f := MFalse]} fm.
Proof.
  unfold clearField, clearAll, setErrors. cbn [value validators errors spread].
  split; [|split; [|split]].
  - destruct (decide (f = g)) as [->|Hne]; [reflexivity|].
    by rewrite insert_insert_ne.
  - by rewrite insert_insert_eq.
  - reflexivity.
  - by rewrite insert_empty.
Qed.

(** X13. The error state never holds the empty string: at the mount it
    has no entry, and each of the five operations, completing or not,
    leaves a state in which every entry is [false] or a non-empty message
    when it was run on such a state. *)
Theorem no_empty_message_kept :
  (∀ vs, no_empty_message (errors (@mount W vs))) ∧
  (∀ fm, no_empty_message (errors fm) →
     no_empty_message (errors (clearAll fm)) ∧
     (∀ f, no_empty_message (errors (clearField f fm))) ∧
     (∀ f rules, no_empty_message (errors (addValidator f rules fm))) ∧
     (∀ f w, no_empty_message (errors (validateField f fm w).1.2)) ∧
     (∀ w, no_empty_message (errors (validateAll fm w).1.2))).
Proof.
  assert (Hins : ∀ fm f h, no_empty_message (errors fm) →
            h = MFalse ∨ truthy h = true →
            no_empty_message
              (errors (setErrors (<[f := h]> (spread (errors fm))) fm))).
  { intros fm f h Hfm Hh g m. simpl.
    destruct (decide (f = g)) as [->|Hne].
    - rewrite lookup_insert_eq. by intros [= <-].
    - rewrite lookup_insert_ne by assumption. apply Hfm. }
  split.
  - intros vs f m. simpl. by rewrite lookup_empty.
  - intros fm Hfm. split; [|split; [|split; [|split]]].
    + intros f m. simpl. by rewrite lookup_empty.
    + intros f. apply Hins; auto.
    + intros f rules. exact Hfm.
    + intros f w. unfold validateField.
      destruct (Obj.get f (validators fm)) as [rules|].
      * destruct (validateField_rules rules (value_at (value fm) f) w)
          as [[h|e] w1] eqn:Hl; simpl; [|exact Hfm].
        apply Hins; [assumption|]. by apply validateField_rules_shape in Hl.
      * destruct (Obj.inherited f); simpl; [exact Hfm|]. apply Hins; auto.
    + intros w. unfold validateAll.
      destruct (validateAll_fields (validators fm) (value fm) ∅ w)
        as [[errs|e] w1] eqn:Hrun; simpl; [|exact Hfm].
      intros f m Hm. right. simpl in Hm.
      apply (validateAll_fields_truthy _ _ _ _ _ _ Hrun) with (f := f);
        [|assumption].
      intros f0 m0. by rewrite lookup_empty.
Qed.

(** X14. A rule is given the value of its own field and nothing else:
    [validateAll] does the same over two [value] objects that agree on the
    registered fields, and [validateField f] the same over two that agree
    on [f]. *)
Theorem validation_reads_own_values fm vs w :
  ((∀ f, f ∈ Obj.keys (validators fm) →
      value_at vs f = value_at (value fm) f) →
   observe (validateAll (withValue vs fm) w) = observe (validateAll fm w)) ∧
  (∀ f, value_at vs f = value_at (value fm) f →
   observe (validateField f (withValue vs fm) w) =
     observe (validateField f fm w)).
Proof.
  split.
  - intros Hv. unfold validateAll, withValue. cbn [value validators].
    rewrite (validateAll_fields_reads _ vs (value fm) _ _ Hv).
    destruct (validateAll_fields (validators fm) (value fm) ∅ w)
      as [[errs|e] w1]; reflexivity.
  - intros f Hv. unfold validateField, withValue.
    cbn [value validators errors]. rewrite Hv.
    destruct (Obj.get f (validators fm)) as [rules|].
    + destruct (validateField_rules rules (value_at (value fm) f) w)
        as [[h|e] w1]; reflexivity.
    + destruct (Obj.inherited f); reflexivity.
Qed.

End Registry.

(** ** Runs for the further properties *)

Section MoreRuns.
Import Scenario.

(** [validateAll_without_rules_is_clearAll] on two fields without rules
    and an old error on record. *)
Lemma validateAll_without_rules_is_clearAll_witness :
  let fm : CForm Log :=
    {| value := {["a" := JStr "x"]}; validators := [("a", []); ("b", [])];
       errors := Some {["a" := MStr "old"]} |} in
  Forall (λ reg, reg.2 = []) (validators fm) ∧
  validateAll fm [] = (Normal tt, clearAll fm, []).
Proof.
  intros fm.
  assert (H : Forall (λ reg : string * list (Validator Log), reg.2 = [])
                (validators fm)) by (repeat constructor).
  split; [exact H|]. exact (validateAll_without_rules_is_clearAll fm [] H).
Defined.

(** [validateAll_only_messages] on [signup], at [email]. *)
Lemma validateAll_only_messages_witness :
  validateAll signup [] =
    (Normal tt, setErrors {["email" := MStr "required"]} signup,
     ["required"; "required"; "minLength"]) ∧
  spread (errors (setErrors {["email" := MStr "required"]} signup))
    !! "email" = Some (MStr "required") ∧
  truthy (MStr "required") = true ∧
  ∃ s, MStr "required" = MStr s ∧ s ≠ "".
Proof.
  assert (H1 : validateAll signup [] =
    (Normal tt, setErrors {["email" := MStr "required"]} signup,
     ["required"; "required"; "minLength"])) by (vm_compute; reflexivity).
  assert (H2 : spread (errors (setErrors {["email" := MStr "required"]} signup))
    !! "email" = Some (MStr "required")) by (vm_compute; reflexivity).
  split; [exact H1|]. split; [exact H2|].
  exact (validateAll_only_messages signup _ [] _ "email" _ H1 H2).
Defined.

(** [validateField_frame] on [signup]: the error on record for [phone]
    stays. *)
Lemma validateField_frame_witness :
  validateField "email" signup [] =
    (Normal tt,
     setErrors (<["email" := MStr "required"]> (spread (errors signup)))
       signup, ["required"]) ∧
  spread (errors (validateField "email" signup []).1.2) !! "phone" =
    Some (MStr "bad phone").
Proof.
  assert (H1 : validateField "email" signup [] =
    (Normal tt,
     setErrors (<["email" := MStr "required"]> (spread (errors signup)))
       signup, ["required"])) by (vm_compute; reflexivity).
  split; [exact H1|].
  destruct (validateField_frame signup _ "email" [] _ H1) as (_ & _ & H).
  rewrite H1. cbn [fst snd]. rewrite (H "phone") by discriminate.
  vm_compute. reflexivity.
Defined.

(** [empty_message_is_no_error] with a rule that answers the empty
    string, alone and before [required]. *)
Lemma empty_message_is_no_error_witness :
  let blank : Validator Log := logged "blank" (λ _, MStr "") in
  let fm := addValidator "email" [blank; required]
              (fresh {["email" := JStr ""]}) in
  let fm1 := addValidator "email" [blank] (fresh {["email" := JStr ""]}) in
  Obj.get "email" (validators fm) = Some [blank; required] ∧
  blank (value_at (value fm) "email") [] = (Normal (MStr ""), ["blank"]) ∧
  observe (validateField "email" fm []) =
    observe (validateField "email" (addValidator "email" [required] fm)
               ["blank"]) ∧
  validateField "email" fm1 [] = (Normal tt, clearField "email" fm1, ["blank"]).
Proof.
  intros blank fm fm1.
  split; [reflexivity|]. split; [reflexivity|]. split.
  - apply (empty_message_is_no_error fm "email" blank [required] [] ["blank"]);
      reflexivity.
  - apply (empty_message_is_no_error fm1 "email" blank [] [] ["blank"]);
      reflexivity.
Defined.

(** [validateField_throw_atomic] on [offline]: [unreachable] rejects and
    [isEmail] is not called. *)
Lemma validateField_throw_atomic_witness :
  Obj.get "email" (validators offline) =
    Some [required; unreachable; isEmail] ∧
  throws_first (value_at (value offline) "email")
    [required; unreachable; isEmail] (JStr "network down")
    [] ["required"; "unreachable"] ∧
  validateField "email" offline [] =
    (Throw (JStr "network down"), offline, ["required"; "unreachable"]).
Proof.
  assert (H : throws_first (value_at (value offline) "email")
    [required; unreachable; isEmail] (JStr "network down")
    [] ["required"; "unreachable"]).
  { exists [required], unreachable, [isEmail], ["required"].
    split; [reflexivity|]. split; [|reflexivity].
    econstructor; [reflexivity | reflexivity | constructor]. }
  split; [reflexivity|]. split; [exact H|].
  exact (validateField_throw_atomic offline "email" _ _ [] _ eq_refl H).
Defined.

Lemma logged_never_throws name verdict : never_throws (logged name verdict).
Proof. intros v w. by eexists _, _. Qed.

Lemma signup_plain : Obj.plain (validators signup).
Proof.
  unfold Obj.plain. vm_compute. intros H.
  repeat (apply elem_of_cons in H as [H|H]; [discriminate|]).
  by apply elem_of_nil in H.
Qed.

(** [completes_when_no_rule_throws] on [signup], whose rules all
    answer: [validateAll], and [validateField] on the registered [email]
    and on the unregistered [zip]. *)
Lemma completes_when_no_rule_throws_witness :
  Obj.plain (validators signup) ∧
  Forall (λ reg, Forall never_throws reg.2) (validators signup) ∧
  Obj.inherited "zip" = false ∧
  (∃ fm' w' errs,
     validateAll signup [] = (Normal tt, fm', w') ∧ errors fm' = Some errs) ∧
  (∃ fm' w' errs,
     validateField "email" signup [] = (Normal tt, fm', w') ∧
     errors fm' = Some errs ∧ is_Some (errs !! "email")) ∧
  (∃ fm' w' errs,
     validateField "zip" signup [] = (Normal tt, fm', w') ∧
     errors fm' = Some errs ∧ is_Some (errs !! "zip")).
Proof.
  assert (H : Forall (λ reg : string * list (Validator Log),
                        Forall never_throws reg.2) (validators signup)).
  { repeat (constructor; [repeat (constructor; [apply logged_never_throws|]);
                          constructor|]).
    constructor. }
  destruct (completes_when_no_rule_throws signup [] signup_plain H)
    as (Hall & Hfield).
  split; [exact signup_plain|]. split; [exact H|]. split; [reflexivity|].
  split; [exact Hall|]. split.
  - exact (Hfield "email" (or_introl (ex_intro _ _ eq_refl))).
  - exact (Hfield "zip" (or_intror eq_refl)).
Defined.




(** [registerAll_last_wins] on [signup]: [email] is registered twice
    more. *)
Lemma registerAll_last_wins_witness :
  let regs := [("email", [isEmail]); ("zip", [required]);
               ("email", [minLength])] in
  Obj.plain (validators signup) ∧
  ("__proto__" ∉ regs.*1) ∧
  Obj.wf (validators signup) ∧
  Obj.get "email" (validators (registerAll regs signup)) = Some [minLength] ∧
  Obj.get "password" (validators (registerAll regs signup)) =
    Some [required; minLength] ∧
  Obj.plain (validators (registerAll regs signup)) ∧
  Obj.wf (validators (registerAll regs signup)).
Proof.
  intros regs.
  assert (Hregs : "__proto__" ∉ regs.*1).
  { vm_compute. intros H.
    repeat (apply elem_of_cons in H as [H|H]; [discriminate|]).
    by apply elem_of_nil in H. }
  destruct (registerAll_last_wins regs signup "email" signup_plain Hregs)
    as (Hget & Hp & Hwf & _).
  destruct (registerAll_last_wins regs signup "password" signup_plain Hregs)
    as (Hget' & _).
  split; [exact signup_plain|]. split; [exact Hregs|].
  split; [exact signup_wf|]. split; [exact Hget|]. split; [exact Hget'|].
  split; [exact Hp | exact (Hwf signup_wf)].
Defined.

(** [addValidator_order] on [signup]: [email] again, and the new [zip]. *)
Lemma addValidator_order_witness :
  Obj.plain (validators signup) ∧
  is_Some (Obj.get "email" (validators signup)) ∧
  Obj.keys (validators (addValidator "email" [minLength] signup)) =
    ["email"; "password"; "nickname"] ∧
  Obj.get "zip" (validators signup) = None ∧
  Obj.array_index "zip" = None ∧
  Obj.keys (validators (addValidator "zip" [required] signup)) =
    ["email"; "password"; "nickname"; "zip"].
Proof.
  assert (H1 : is_Some (Obj.get "email" (validators signup))) by (by eexists).
  destruct (addValidator_order signup "email" [minLength] signup_plain
              ltac:(discriminate)) as (Hagain & _).
  destruct (addValidator_order signup "zip" [required] signup_plain
              ltac:(discriminate)) as (_ & Hnew & _).
  split; [exact signup_plain|]. split; [exact H1|].
  split; [by rewrite (Hagain H1)|].
  split; [reflexivity|]. split; [reflexivity|].
  by rewrite (Hnew eq_refl eq_refl).
Defined.

(** [numeric_fields_come_first]: [b], [10], [a], [2] registered in this
    order are gone through as [2], [10], [b], [a]. *)
Lemma numeric_fields_come_first_witness :
  let regs : list (string * list (Validator Log)) :=
    [("b", []); ("10", []); ("a", []); ("2", [])] in
  Obj.keys (validators (registerAll regs (mount ∅))) =
    [] ++ "2" :: ["10"; "b"; "a"] ∧
  "10" ∈ ["10"; "b"; "a"] ∧
  Obj.array_index "10" = Some 10%N ∧
  ∃ n, Obj.array_index "2" = Some n ∧ (n ≤ 10)%N.
Proof.
  intros regs.
  assert (H2 : "10" ∈ ["10"; "b"; "a"]) by (apply elem_of_cons; by left).
  split; [reflexivity|]. split; [exact H2|]. split; [reflexivity|].
  exact (numeric_fields_come_first regs ∅ [] "2" ["10"; "b"; "a"] "10" 10%N
           eq_refl H2 eq_refl).
Defined.

(** [no_empty_message_kept] on [signup]. *)
Lemma no_empty_message_kept_witness :
  no_empty_message (errors signup) ∧
  no_empty_message (errors (clearField "email" signup)) ∧
  no_empty_message (errors (validateField "email" signup []).1.2) ∧
  no_empty_message (errors (validateAll signup []).1.2).
Proof.
  assert (H : no_empty_message (errors signup)).
  { intros f m Hm. right.
    change (spread (errors signup)) with
      ({["phone" := MStr "bad phone"]} : Errors) in Hm.
    by apply lookup_singleton_Some in Hm as [_ <-]. }
  destruct (@no_empty_message_kept Log) as (_ & Hkept).
  destruct (Hkept signup H) as (_ & Hc & _ & Hf & Ha).
  split; [exact H|]. split; [exact (Hc "email")|].
  split; [exact (Hf "email" []) | exact (Ha [])].
Defined.

(** [validation_reads_own_values] on [signup] and a value object that
    differs at the unregistered [phone]. *)
Lemma validation_reads_own_values_witness :
  let vs := <["phone" := JStr "123"]> (value signup) in
  (∀ f, f ∈ Obj.keys (validators signup) →
     value_at vs f = value_at (value signup) f) ∧
  value_at vs "email" = value_at (value signup) "email" ∧
  observe (validateAll (withValue vs signup) []) =
    observe (validateAll signup []) ∧
  observe (validateField "email" (withValue vs signup) []) =
    observe (validateField "email" signup []).
Proof.
  intros vs.
  assert (H : ∀ f, f ∈ Obj.keys (validators signup) →
                value_at vs f = value_at (value signup) f).
  { intros f Hf. unfold value_at, vs.
    rewrite lookup_insert_ne; [reflexivity|].
    intros <-. vm_compute in Hf.
    repeat (apply elem_of_cons in Hf as [Hf|Hf]; [discriminate|]).
    by apply elem_of_nil in Hf. }
  destruct (validation_reads_own_values signup vs []) as (Ha & Hf).
  split; [exact H|]. split; [reflexivity|].
  split; [exact (Ha H) | exact (Hf "email" eq_refl)].
Defined.

End MoreRuns.

(** ** Rules that only answer: calls and findings in closed form *)

Section TracedRuns.
Import Scenario Traced.


Lemma validateField_rules_traced rs v (log : Log) :
  validateField_rules (map run rs) v log =
  (Normal (default MFalse (first_message rs v)), log ++ called rs v).
Proof.
  revert log. induction rs as [|r rest IH]; intros log; simpl.
  - unfold ret. by rewrite app_nil_r.
  - unfold bind, run at 1, logged. destruct (truthy (r.2 v)) eqn:Ht.
    + reflexivity.
    + rewrite IH. by rewrite <- app_assoc.
Qed.



(** X16. For rules that only answer, [validateField f] completes, calls
    the rules of [f] up to and with the first that fails, each once and no
    other, and the error state it leaves holds under [f] that rule's
    message, or [false] when no rule fails, and under every other field
    what the state it closed over held. *)
Theorem validateField_traced (fm : CForm Log) f rs log :
  Obj.get f (validators fm) = Some (map run rs) →
  validateField f fm log =
    (Normal tt,
     setErrors
       (<[f := default MFalse (first_message rs (value_at (value fm) f))]>
          (spread (errors fm))) fm,
     log ++ called rs (value_at (value fm) f)) ∧
  ∃ errs,
    observe (validateField f fm log) =
      (Normal tt, Some errs, log ++ called rs (value_at (value fm) f)) ∧
    errs !! f =
      Some (default MFalse (first_message rs (value_at (value fm) f))) ∧
    ∀ g, g ≠ f →
      errs !! g = match errors fm with
                  | Some old => old !! g
                  | None => None
                  end.
Proof.
  intros Hget. unfold validateField. rewrite Hget.
  rewrite validateField_rules_traced. split; [reflexivity|].
  eexists. split; [reflexivity|]. split; [apply lookup_insert_eq|].
  intros g Hg. rewrite lookup_insert_ne by congruence.
  destruct (errors fm); [reflexivity | apply lookup_empty].
Qed.


Lemma validateField_traced_witness :
  let nonempty : Rule :=
    ("nonempty", λ v, match v with JStr "" => MStr "required" | _ => MFalse end) in
  let never : Rule := ("never", λ _, MStr "no") in
  let rs := [nonempty; never] in
  let fm : CForm Log :=
    {| value := {["name" := JStr "Ann"]};
       validators := registry [("name", rs)];
       errors := Some {["email" := MStr "required"]} |} in
  Obj.get "name" (validators fm) = Some (map run rs) ∧
  observe (validateField "name" fm []) =
    (Normal tt, Some {["email" := MStr "required"; "name" := MStr "no"]},
     ["nonempty"; "never"]) ∧
  ∃ errs,
    observe (validateField "name" fm []) =
      (Normal tt, Some errs, ["nonempty"; "never"]) ∧
    errs !! "name" = Some (MStr "no") ∧
    errs !! "email" = Some (MStr "required").
Proof.
  intros nonempty never rs fm. split; [reflexivity|].
  split; [vm_compute; reflexivity|].
  destruct (validateField_traced fm "name" rs [] eq_refl)
    as (_ & errs & Hobs & Hname & Hother).
  exists errs. split; [exact Hobs|]. split; [exact Hname|].
  by rewrite (Hother "email").
Defined.

End TracedRuns.
